(** * Overlap_Clipper: the helpers of [algorithms.py] over an abstract geometry engine

    [algorithms.py] holds three free functions, [clean_overlap],
    [clean_geometry_artifacts] and [get_feature_area].  Each one is a short
    straight-line sequence of method calls on [QgsGeometry] objects.  The
    geometry engine (qgis.core) is a collaborator that lives outside the
    repository, so it enters this development as an interface, [Engine]:
    one pure function per method the code calls.

    Python geometries are objects: a variable holds a reference, two names
    can alias one object, and [removeDuplicateNodes] changes the object it is
    called on.  The embedding therefore threads a store of objects through
    every call, together with the log of the engine calls made so far. *)

From Stdlib Require Import ZArith List Bool Lia Floats.
From stdpp Require Import base list.

Local Open Scope nat_scope.

(** ** The engine interface *)

(** The methods of a [QgsGeometry] value that [algorithms.py] uses, as
    functions on the geometry values of type [G].  [removeDuplicateNodes]
    gives the value the object has after the in-place call, [QgsGeometry_value]
    is what the constructor call [QgsGeometry()] builds, and [truthy] is
    Python's truth test of a geometry object. *)
Class Engine (G : Type) : Type := {
  eng_intersects : G -> G -> bool;
  eng_difference : G -> G -> G;
  eng_isGeosValid : G -> bool;
  eng_makeValid : G -> G;
  eng_removeDuplicateNodes : G -> G;
  eng_isEmpty : G -> bool;
  eng_area : G -> float;
  eng_truthy : G -> bool;
  QgsGeometry_value : G
}.

(** ** Objects, the store and the call log *)

(** A reference to a geometry object: its position in the store. *)
Abbreviation ref := nat.

(** One entry of the log per engine call, in the order the calls are made.
    A call that builds a new geometry records the reference of the new
    object as [out]. *)
Inductive Call : Type :=
| CallIntersects (self other : ref)
| CallDifference (self other out : ref)
| CallIsGeosValid (self : ref)
| CallMakeValid (self out : ref)
| CallRemoveDuplicateNodes (self : ref)
| CallIsEmpty (self : ref)
| CallArea (self : ref)
| CallBool (self : ref)
| CallQgsGeometry (out : ref).

(** A feature: its geometry accessor yields a geometry object or nothing. *)
Record QgsFeature : Type := { feature_geometry : option ref }.

Section Program.

Context {G : Type} {E : Engine G}.

Record World : Type := { heap : list G; calls : list Call }.

(** A computation reads and updates the world and may raise ([None]). *)
Definition Run (A : Type) : Type := World -> option (A * World).

Definition ret {A : Type} (x : A) : Run A := fun w => Some (x, w).

Definition raise {A : Type} : Run A := fun _ => None.

Definition bind {A B : Type} (m : Run A) (k : A -> Run B) : Run B :=
  fun w => match m w with
           | Some (x, w') => k x w'
           | None => None
           end.

Notation "'let*' x := m 'in' k" := (bind m (fun x => k))
  (at level 10, x name, m at level 100, k at level 200).

(** Reading the value of an object; a reference to no object raises. *)
Definition deref (r : ref) : Run G :=
  fun w => match heap w !! r with
           | Some g => Some (g, w)
           | None => None
           end.

(** A new object goes to the end of the store: its reference is fresh. *)
Definition alloc (g : G) : Run ref :=
  fun w => Some (length (heap w), {| heap := heap w ++ [g]; calls := calls w |}).

(** In-place update of the object behind [r]. *)
Definition assign (r : ref) (g : G) : Run unit :=
  fun w => Some (tt, {| heap := <[r := g]> (heap w); calls := calls w |}).

Definition record (c : Call) : Run unit :=
  fun w => Some (tt, {| heap := heap w; calls := calls w ++ [c] |}).

(** ** The method calls the code makes *)

Definition intersects (self other : ref) : Run bool :=
  let* a := deref self in
  let* b := deref other in
  let* _ := record (CallIntersects self other) in
  ret (eng_intersects a b).

Definition difference (self other : ref) : Run ref :=
  let* a := deref self in
  let* b := deref other in
  let* out := alloc (eng_difference a b) in
  let* _ := record (CallDifference self other out) in
  ret out.

Definition isGeosValid (self : ref) : Run bool :=
  let* a := deref self in
  let* _ := record (CallIsGeosValid self) in
  ret (eng_isGeosValid a).

Definition makeValid (self : ref) : Run ref :=
  let* a := deref self in
  let* out := alloc (eng_makeValid a) in
  let* _ := record (CallMakeValid self out) in
  ret out.

(** The call is a statement in both functions: its result is dropped. *)
Definition removeDuplicateNodes (self : ref) : Run unit :=
  let* a := deref self in
  let* _ := assign self (eng_removeDuplicateNodes a) in
  record (CallRemoveDuplicateNodes self).

Definition isEmpty (self : ref) : Run bool :=
  let* a := deref self in
  let* _ := record (CallIsEmpty self) in
  ret (eng_isEmpty a).

Definition area (self : ref) : Run float :=
  let* a := deref self in
  let* _ := record (CallArea self) in
  ret (eng_area a).

(** The constructor call [QgsGeometry()]. *)
Definition QgsGeometry : Run ref :=
  let* out := alloc QgsGeometry_value in
  let* _ := record (CallQgsGeometry out) in
  ret out.

(** [feature.geometry()]. *)
Definition geometry (feature : QgsFeature) : Run (option ref) :=
  ret (feature_geometry feature).

(** The truth test of an [if]: nothing is false, a geometry object answers
    through the engine. *)
Definition truth (v : option ref) : Run bool :=
  match v with
  | None => ret false
  | Some r =>
      let* a := deref r in
      let* _ := record (CallBool r) in
      ret (eng_truthy a)
  end.

(** A method call on the value of an expression: on nothing it raises. *)
Definition on_object {A : Type} (v : option ref) (method : ref -> Run A) : Run A :=
  match v with
  | None => raise
  | Some r => method r
  end.

(** ** The three functions of [algorithms.py] *)

Definition clean_overlap (geom_to_be_clipped geom_clipper : ref) : Run ref :=
  let* hit := intersects geom_to_be_clipped geom_clipper in
  if negb hit then ret geom_to_be_clipped
  else
    let* modified_geom := difference geom_to_be_clipped geom_clipper in
    let* ok := isGeosValid modified_geom in
    let* modified_geom := (if negb ok then makeValid modified_geom
                           else ret modified_geom) in
    let* _ := removeDuplicateNodes modified_geom in
    let* empty := isEmpty modified_geom in
    if empty then QgsGeometry
    else ret modified_geom.

Definition clean_geometry_artifacts (geometry : ref) : Run ref :=
  let* empty := isEmpty geometry in
  if empty then ret geometry
  else
    let* _ := removeDuplicateNodes geometry in
    let* ok := isGeosValid geometry in
    let* geometry := (if negb ok then makeValid geometry else ret geometry) in
    ret geometry.

Definition get_feature_area (feature : QgsFeature) : Run float :=
  let* g := geometry feature in
  let* present := truth g in
  if present then
    let* g := geometry feature in
    on_object g area
  else ret 0%float.

(** ** Vocabulary for the statements *)

(** The value [modified_geom] names once the validity test of
    [clean_overlap] (or of [clean_geometry_artifacts]) and the repair it
    guards are over: the tested value when it is valid, its repair when not. *)
Definition repaired (g : G) : G :=
  if eng_isGeosValid g then g else eng_makeValid g.

(** The run of [m] from [w] returns, with a result and a final world that
    satisfy [post]. *)
Definition returns {A : Type} (m : Run A) (w : World)
    (post : A -> World -> Prop) : Prop :=
  exists x w', m w = Some (x, w') /\ post x w'.

(** The object behind [r] exists in [w] and has another value in [w']. *)
Definition mutated (r : ref) (w w' : World) : Prop :=
  exists g, heap w !! r = Some g /\ heap w' !! r <> Some g.

End Program.

Arguments World G : clear implicits.
Arguments Run G A : clear implicits.

(** ** Which functions change an argument

    A function mutates its input when some engine, some world and some
    arguments exist for which a run changes the value of an object that was
    passed in. *)

Definition clean_overlap_mutates_input : Prop :=
  exists (G : Type) (E : Engine G) (w : World G) (a b : ref),
    returns (clean_overlap a b) w
      (fun _ w' => mutated a w w' \/ mutated b w w').

Definition clean_geometry_artifacts_mutates_input : Prop :=
  exists (G : Type) (E : Engine G) (w : World G) (g : ref),
    returns (clean_geometry_artifacts g) w (fun _ w' => mutated g w w').

Definition get_feature_area_mutates_input : Prop :=
  exists (G : Type) (E : Engine G) (w : World G) (f : QgsFeature) (r : ref),
    feature_geometry f = Some r /\
    returns (get_feature_area f) w (fun _ w' => mutated r w w').

Definition exactly_two (P Q R : Prop) : Prop :=
  (P /\ Q /\ ~ R) \/ (P /\ ~ Q /\ R) \/ (~ P /\ Q /\ R).

(** ** A small engine to run the code on

    Geometries on the integer line: the null geometry, or a path given by
    the sequence of its vertices.  A path is valid when it never turns back,
    repairing a path sorts its vertices, and deduplication drops a vertex
    that coincides with the one before it.  As for a [QgsGeometry], the
    constructor builds the null geometry, which is empty, is not valid and
    is false in a truth test. *)
Module Line.

Inductive geom : Type :=
| Null
| Path (vertices : list Z).

Definition member (x : Z) (l : list Z) : bool := existsb (Z.eqb x) l.

Fixpoint ascending (l : list Z) : bool :=
  match l with
  | x :: t => match t with
              | y :: _ => (x <=? y)%Z && ascending t
              | [] => true
              end
  | [] => true
  end.

Fixpoint put_in_order (x : Z) (l : list Z) : list Z :=
  match l with
  | y :: t => if (x <=? y)%Z then x :: y :: t else y :: put_in_order x t
  | [] => [x]
  end.

Fixpoint in_order (l : list Z) : list Z :=
  match l with
  | x :: t => put_in_order x (in_order t)
  | [] => []
  end.

Fixpoint squash (l : list Z) : list Z :=
  match l with
  | x :: t => match t with
              | y :: _ => if (x =? y)%Z then squash t else x :: squash t
              | [] => [x]
              end
  | [] => []
  end.

(** No vertex coincides with its successor. *)
Fixpoint no_coincident (l : list Z) : bool :=
  match l with
  | x :: t => match t with
              | y :: _ => negb (x =? y)%Z && no_coincident t
              | [] => true
              end
  | [] => true
  end.

(** The length of line a path covers. *)
Definition extent (l : list Z) : Z :=
  match l with
  | x :: t => (fold_right Z.max x t - fold_right Z.min x t)%Z
  | [] => 0%Z
  end.

Definition line_intersects (a b : geom) : bool :=
  match a, b with
  | Path va, Path vb => existsb (fun x => member x vb) va
  | _, _ => false
  end.

Definition line_difference (a b : geom) : geom :=
  match a, b with
  | Path va, Path vb => Path (List.filter (fun x => negb (member x vb)) va)
  | _, _ => Null
  end.

Definition line_isGeosValid (a : geom) : bool :=
  match a with
  | Path va => ascending va
  | Null => false
  end.

Definition line_makeValid (a : geom) : geom :=
  match a with
  | Path va => Path (in_order va)
  | Null => Path []
  end.

Definition line_removeDuplicateNodes (a : geom) : geom :=
  match a with
  | Path va => Path (squash va)
  | Null => Null
  end.

Definition line_isEmpty (a : geom) : bool :=
  match a with
  | Path (_ :: _) => false
  | _ => true
  end.

Definition line_area (a : geom) : float :=
  match a with
  | Path va => PrimFloat.of_uint63 (Uint63.of_Z (extent va))
  | Null => 0%float
  end.

Definition line_truthy (a : geom) : bool :=
  match a with
  | Path _ => true
  | Null => false
  end.

Definition no_duplicate_nodes (a : geom) : bool :=
  match a with
  | Path va => no_coincident va
  | Null => true
  end.

#[global] Instance engine : Engine geom := {
  eng_intersects := line_intersects;
  eng_difference := line_difference;
  eng_isGeosValid := line_isGeosValid;
  eng_makeValid := line_makeValid;
  eng_removeDuplicateNodes := line_removeDuplicateNodes;
  eng_isEmpty := line_isEmpty;
  eng_area := line_area;
  eng_truthy := line_truthy;
  QgsGeometry_value := Null
}.

(** A world with the given objects and an empty log. *)
Definition world (objects : list geom) : World geom :=
  {| heap := objects; calls := [] |}.

End Line.

(** * Properties *)

(** ** One step at a time *)

Section Steps.

Context {G : Type} {E : Engine G}.

Implicit Types (w : World G) (a b r : ref) (g : G).

Lemma bind_run {A B : Type} (m : Run G A) (k : A -> Run G B) w x w' :
  m w = Some (x, w') -> bind m k w = k x w'.
Proof. intros H. unfold bind. now rewrite H. Qed.

Lemma bind_raise {A B : Type} (m : Run G A) (k : A -> Run G B) w :
  m w = None -> bind m k w = None.
Proof. intros H. unfold bind. now rewrite H. Qed.

Lemma deref_run w r g : heap w !! r = Some g -> deref r w = Some (g, w).
Proof. intros H. unfold deref. now rewrite H. Qed.

Lemma deref_raise w r : heap w !! r = None -> deref r w = None.
Proof. intros H. unfold deref. now rewrite H. Qed.

Lemma intersects_run w a b ga gb :
  heap w !! a = Some ga -> heap w !! b = Some gb ->
  intersects a b w =
    Some (eng_intersects ga gb,
          {| heap := heap w; calls := calls w ++ [CallIntersects a b] |}).
Proof.
  intros Ha Hb. unfold intersects.
  rewrite (bind_run _ _ _ _ _ (deref_run _ _ _ Ha)).
  rewrite (bind_run _ _ _ _ _ (deref_run _ _ _ Hb)).
  reflexivity.
Qed.

Lemma difference_run w a b ga gb :
  heap w !! a = Some ga -> heap w !! b = Some gb ->
  difference a b w =
    Some (length (heap w),
          {| heap := heap w ++ [eng_difference ga gb];
             calls := calls w ++ [CallDifference a b (length (heap w))] |}).
Proof.
  intros Ha Hb. unfold difference.
  rewrite (bind_run _ _ _ _ _ (deref_run _ _ _ Ha)).
  rewrite (bind_run _ _ _ _ _ (deref_run _ _ _ Hb)).
  reflexivity.
Qed.

Lemma isGeosValid_run w r g :
  heap w !! r = Some g ->
  isGeosValid r w =
    Some (eng_isGeosValid g,
          {| heap := heap w; calls := calls w ++ [CallIsGeosValid r] |}).
Proof.
  intros Hr. unfold isGeosValid.
  rewrite (bind_run _ _ _ _ _ (deref_run _ _ _ Hr)). reflexivity.
Qed.

Lemma makeValid_run w r g :
  heap w !! r = Some g ->
  makeValid r w =
    Some (length (heap w),
          {| heap := heap w ++ [eng_makeValid g];
             calls := calls w ++ [CallMakeValid r (length (heap w))] |}).
Proof.
  intros Hr. unfold makeValid.
  rewrite (bind_run _ _ _ _ _ (deref_run _ _ _ Hr)). reflexivity.
Qed.

Lemma removeDuplicateNodes_run w r g :
  heap w !! r = Some g ->
  removeDuplicateNodes r w =
    Some (tt,
          {| heap := <[r := eng_removeDuplicateNodes g]> (heap w);
             calls := calls w ++ [CallRemoveDuplicateNodes r] |}).
Proof.
  intros Hr. unfold removeDuplicateNodes.
  rewrite (bind_run _ _ _ _ _ (deref_run _ _ _ Hr)). reflexivity.
Qed.

Lemma isEmpty_run w r g :
  heap w !! r = Some g ->
  isEmpty r w =
    Some (eng_isEmpty g,
          {| heap := heap w; calls := calls w ++ [CallIsEmpty r] |}).
Proof.
  intros Hr. unfold isEmpty.
  rewrite (bind_run _ _ _ _ _ (deref_run _ _ _ Hr)). reflexivity.
Qed.

Lemma area_run w r g :
  heap w !! r = Some g ->
  area r w =
    Some (eng_area g, {| heap := heap w; calls := calls w ++ [CallArea r] |}).
Proof.
  intros Hr. unfold area.
  rewrite (bind_run _ _ _ _ _ (deref_run _ _ _ Hr)). reflexivity.
Qed.

Lemma truth_run w r g :
  heap w !! r = Some g ->
  truth (Some r) w =
    Some (eng_truthy g, {| heap := heap w; calls := calls w ++ [CallBool r] |}).
Proof.
  intros Hr. unfold truth.
  rewrite (bind_run _ _ _ _ _ (deref_run _ _ _ Hr)). reflexivity.
Qed.

(** The last object of a store, and its update in place. *)
Lemma lookup_last_object (h : list G) g (n : nat) :
  n = length h -> (h ++ [g]) !! n = Some g.
Proof. intros ->. apply list_lookup_middle. reflexivity. Qed.

Lemma update_last_object (h : list G) g g' (n : nat) :
  n = length h -> <[n := g']> (h ++ [g]) = h ++ [g'].
Proof.
  intros ->. rewrite insert_app_r_alt by lia. now rewrite Nat.sub_diag.
Qed.

Lemma lookup_old_object (h extra : list G) r g :
  h !! r = Some g -> (h ++ extra) !! r = Some g.
Proof. intros H. now apply lookup_app_l_Some. Qed.

End Steps.

(** ** What each function does, case by case *)

Section Runs.

Context {G : Type} {E : Engine G}.

Implicit Types (w : World G) (a b r : ref) (g : G).

(** [clean_overlap] on arguments that do not intersect. *)
Lemma clean_overlap_apart w a b ga gb :
  heap w !! a = Some ga -> heap w !! b = Some gb ->
  eng_intersects ga gb = false ->
  clean_overlap a b w =
    Some (a, {| heap := heap w; calls := calls w ++ [CallIntersects a b] |}).
Proof.
  intros Ha Hb Hi. unfold clean_overlap.
  rewrite (bind_run _ _ _ _ _ (intersects_run _ _ _ _ _ Ha Hb)), Hi.
  reflexivity.
Qed.

(** [clean_overlap] on arguments that intersect: the difference [d] becomes
    object [n]; when [d] is not valid its repair becomes object [S n]; [m]
    is the object deduplicated in place and tested for emptiness. *)
Lemma clean_overlap_overlapping w a b ga gb :
  heap w !! a = Some ga -> heap w !! b = Some gb ->
  eng_intersects ga gb = true ->
  let n := length (heap w) in
  let d := eng_difference ga gb in
  let m := if eng_isGeosValid d then n else S n in
  let c := eng_removeDuplicateNodes (repaired d) in
  let objects := heap w ++ (if eng_isGeosValid d then [c] else [d; c]) in
  let log := calls w
             ++ [CallIntersects a b; CallDifference a b n; CallIsGeosValid n]
             ++ (if eng_isGeosValid d then [] else [CallMakeValid n (S n)])
             ++ [CallRemoveDuplicateNodes m; CallIsEmpty m] in
  clean_overlap a b w =
    if eng_isEmpty c
    then Some (S m, {| heap := objects ++ [QgsGeometry_value];
                       calls := log ++ [CallQgsGeometry (S m)] |})
    else Some (m, {| heap := objects; calls := log |}).
Proof.
  intros Ha Hb Hi. cbv zeta. unfold repaired, clean_overlap.
  rewrite (bind_run _ _ _ _ _ (intersects_run _ _ _ _ _ Ha Hb)), Hi.
  cbn [negb].
  erewrite bind_run by (apply difference_run; cbn [heap]; eassumption).
  erewrite bind_run
    by (apply isGeosValid_run; cbn [heap]; now apply lookup_last_object).
  set (d := eng_difference ga gb).
  assert (Hlen : S (length (heap w)) = length (heap w ++ [d]))
    by (rewrite length_app, Nat.add_1_r; reflexivity).
  destruct (eng_isGeosValid d) eqn:Hv; cbn [negb].
  - erewrite bind_run by reflexivity.
    erewrite bind_run
      by (apply removeDuplicateNodes_run; cbn [heap];
          now apply lookup_last_object).
    cbn [heap calls].
    rewrite (update_last_object (heap w)) by reflexivity.
    erewrite bind_run
      by (apply isEmpty_run; cbn [heap]; now apply lookup_last_object).
    cbn [heap calls].
    destruct (eng_isEmpty (eng_removeDuplicateNodes d)).
    + unfold QgsGeometry, bind, alloc, record, ret. cbn [heap calls].
      rewrite length_app, Nat.add_1_r, <- !app_assoc. reflexivity.
    + unfold ret. rewrite <- !app_assoc. reflexivity.
  - erewrite bind_run
      by (apply makeValid_run; cbn [heap]; now apply lookup_last_object).
    cbn [heap calls]. rewrite <- Hlen.
    erewrite bind_run
      by (apply removeDuplicateNodes_run; cbn [heap];
          now apply lookup_last_object).
    cbn [heap calls].
    rewrite (update_last_object (heap w ++ [d])) by exact Hlen.
    erewrite bind_run
      by (apply isEmpty_run; cbn [heap]; now apply lookup_last_object).
    cbn [heap calls].
    destruct (eng_isEmpty (eng_removeDuplicateNodes (eng_makeValid d))).
    + unfold QgsGeometry, bind, alloc, record, ret. cbn [heap calls].
      rewrite !length_app, !Nat.add_1_r, <- !app_assoc. reflexivity.
    + unfold ret. rewrite <- !app_assoc. reflexivity.
Qed.

(** [clean_geometry_artifacts] on an empty geometry. *)
Lemma clean_geometry_artifacts_empty w r g :
  heap w !! r = Some g -> eng_isEmpty g = true ->
  clean_geometry_artifacts r w =
    Some (r, {| heap := heap w; calls := calls w ++ [CallIsEmpty r] |}).
Proof.
  intros Hr He. unfold clean_geometry_artifacts.
  rewrite (bind_run _ _ _ _ _ (isEmpty_run _ _ _ Hr)), He. reflexivity.
Qed.

(** [clean_geometry_artifacts] on a geometry that is not empty: [c] is the
    value of the argument after the deduplication in place. *)
Lemma clean_geometry_artifacts_nonempty w r g :
  heap w !! r = Some g -> eng_isEmpty g = false ->
  let n := length (heap w) in
  let c := eng_removeDuplicateNodes g in
  let log := calls w
             ++ [CallIsEmpty r; CallRemoveDuplicateNodes r; CallIsGeosValid r] in
  clean_geometry_artifacts r w =
    if eng_isGeosValid c
    then Some (r, {| heap := <[r := c]> (heap w); calls := log |})
    else Some (n, {| heap := <[r := c]> (heap w) ++ [eng_makeValid c];
                     calls := log ++ [CallMakeValid r n] |}).
Proof.
  intros Hr He n c log.
  assert (Hlt : r < length (heap w)) by (eapply lookup_lt_Some; eassumption).
  unfold clean_geometry_artifacts.
  rewrite (bind_run _ _ _ _ _ (isEmpty_run _ _ _ Hr)), He.
  erewrite bind_run
    by (apply removeDuplicateNodes_run; cbn [heap]; eassumption).
  erewrite bind_run
    by (apply isGeosValid_run; cbn [heap];
        apply list_lookup_insert_eq; assumption).
  fold c. subst log.
  destruct (eng_isGeosValid c); cbn [negb].
  - unfold bind, ret. cbn [heap calls]. rewrite <- !app_assoc. reflexivity.
  - erewrite bind_run
      by (apply makeValid_run; cbn [heap];
          apply list_lookup_insert_eq; assumption).
    unfold ret. cbn [heap calls]. rewrite length_insert. fold n c.
    rewrite <- !app_assoc. reflexivity.
Qed.

(** [get_feature_area], by what the accessor yields. *)
Lemma get_feature_area_absent w f :
  feature_geometry f = None -> get_feature_area f w = Some (0%float, w).
Proof.
  intros Hf. unfold get_feature_area, geometry, bind, ret. rewrite Hf.
  reflexivity.
Qed.

Lemma get_feature_area_object w f r g :
  feature_geometry f = Some r -> heap w !! r = Some g ->
  get_feature_area f w =
    if eng_truthy g
    then Some (eng_area g,
               {| heap := heap w; calls := calls w ++ [CallBool r; CallArea r] |})
    else Some (0%float,
               {| heap := heap w; calls := calls w ++ [CallBool r] |}).
Proof.
  intros Hf Hr. unfold get_feature_area, geometry.
  rewrite (bind_run _ _ w (feature_geometry f) w) by reflexivity.
  rewrite Hf, (bind_run _ _ _ _ _ (truth_run _ _ _ Hr)).
  destruct (eng_truthy g).
  - erewrite bind_run by reflexivity. unfold on_object.
    erewrite area_run by (cbn [heap]; eassumption).
    cbn [heap calls]. rewrite <- app_assoc. reflexivity.
  - reflexivity.
Qed.

End Runs.

(** ** The line engine keeps the contract of its methods *)

Module LineFacts.

Import Line.

Lemma put_in_order_ascending (x : Z) (l : list Z) :
  ascending l = true -> ascending (put_in_order x l) = true.
Proof.
  induction l as [|y t IH]; intros Hl; [reflexivity|].
  cbn [put_in_order]. destruct (x <=? y)%Z eqn:Hxy.
  - cbn [ascending]. now rewrite Hxy.
  - assert (Ht : ascending t = true).
    { destruct t; [reflexivity|]. cbn [ascending] in Hl.
      now apply andb_true_iff in Hl. }
    specialize (IH Ht). destruct t as [|z t'].
    + cbn. apply andb_true_iff. split; [apply Z.leb_le|reflexivity].
      apply Z.leb_gt in Hxy. lia.
    + cbn [ascending] in Hl. apply andb_true_iff in Hl as [Hyz _].
      cbn [put_in_order] in *. destruct (x <=? z)%Z.
      * change (((y <=? x)%Z && ascending (x :: z :: t')) = true).
        rewrite IH, andb_true_r. apply Z.leb_le. apply Z.leb_gt in Hxy. lia.
      * change (((y <=? z)%Z && ascending (z :: put_in_order x t')) = true).
        now rewrite Hyz, IH.
Qed.

Lemma in_order_ascending (l : list Z) : ascending (in_order l) = true.
Proof.
  induction l as [|x t IH]; [reflexivity|].
  cbn [in_order]. now apply put_in_order_ascending.
Qed.

(** Deduplication keeps the first vertex. *)
Lemma squash_first (x : Z) (t : list Z) :
  exists t', squash (x :: t) = x :: t'.
Proof.
  revert x. induction t as [|y t IH]; intros x.
  - now exists [].
  - change (squash (x :: y :: t))
      with (if (x =? y)%Z then squash (y :: t) else x :: squash (y :: t)).
    destruct (Z.eqb_spec x y) as [->|_].
    + apply IH.
    + now exists (squash (y :: t)).
Qed.

Lemma squash_no_coincident (l : list Z) : no_coincident (squash l) = true.
Proof.
  induction l as [|x t IH]; [reflexivity|].
  destruct t as [|y t]; [reflexivity|].
  change (squash (x :: y :: t))
    with (if (x =? y)%Z then squash (y :: t) else x :: squash (y :: t)).
  destruct (x =? y)%Z eqn:Hxy; [exact IH|].
  destruct (squash_first y t) as [t' Ht']. rewrite Ht' in IH |- *.
  change ((negb (x =? y)%Z && no_coincident (y :: t')) = true).
  now rewrite Hxy, IH.
Qed.

Lemma squash_ascending (l : list Z) :
  ascending l = true -> ascending (squash l) = true.
Proof.
  induction l as [|x t IH]; [reflexivity|].
  destruct t as [|y t]; [reflexivity|]. intros Hl.
  change (((x <=? y)%Z && ascending (y :: t)) = true) in Hl.
  apply andb_true_iff in Hl as [Hxy Ht]. specialize (IH Ht).
  change (squash (x :: y :: t))
    with (if (x =? y)%Z then squash (y :: t) else x :: squash (y :: t)).
  destruct (x =? y)%Z; [exact IH|].
  destruct (squash_first y t) as [t' Ht']. rewrite Ht' in IH |- *.
  change (((x <=? y)%Z && ascending (y :: t')) = true).
  now rewrite Hxy, IH.
Qed.

(** A repair gives a valid geometry. *)
Lemma makeValid_valid (g : geom) :
  eng_isGeosValid (eng_makeValid g) = true.
Proof. destruct g; [reflexivity|]. apply in_order_ascending. Qed.

(** A deduplicated geometry has no vertex that coincides with the one
    before it. *)
Lemma removeDuplicateNodes_clean (g : geom) :
  no_duplicate_nodes (eng_removeDuplicateNodes g) = true.
Proof. destruct g; [reflexivity|]. apply squash_no_coincident. Qed.

(** Deduplication keeps a valid geometry valid. *)
Lemma removeDuplicateNodes_keeps_valid (g : geom) :
  eng_isGeosValid g = true ->
  eng_isGeosValid (eng_removeDuplicateNodes g) = true.
Proof. destruct g; [discriminate|]. apply squash_ascending. Qed.

End LineFacts.

(** ** What a run leaves alone *)

Section Frames.

Context {G : Type} {E : Engine G}.

Implicit Types (w : World G) (a b r : ref) (g : G).

(** A run of [clean_overlap] that returns was given two objects. *)
Lemma clean_overlap_arguments w a b r w' :
  clean_overlap a b w = Some (r, w') ->
  exists ga gb, heap w !! a = Some ga /\ heap w !! b = Some gb.
Proof.
  unfold clean_overlap, intersects. unfold bind at 1 2 3, deref.
  destruct (heap w !! a) as [ga|]; [|discriminate].
  destruct (heap w !! b) as [gb|]; [|discriminate].
  intros _. now exists ga, gb.
Qed.

Lemma clean_overlap_total w a b ga gb :
  heap w !! a = Some ga -> heap w !! b = Some gb ->
  exists r w', clean_overlap a b w = Some (r, w').
Proof.
  intros Ha Hb. destruct (eng_intersects ga gb) eqn:Hi.
  - rewrite (clean_overlap_overlapping _ _ _ _ _ Ha Hb Hi).
    destruct (eng_isEmpty _); eauto.
  - rewrite (clean_overlap_apart _ _ _ _ _ Ha Hb Hi). eauto.
Qed.

(** [clean_overlap] only adds objects at the end of the store, and every
    deduplication it asks for is on one of the added objects. *)
Lemma clean_overlap_frame w a b r w' :
  clean_overlap a b w = Some (r, w') ->
  exists extra new,
    heap w' = heap w ++ extra /\
    calls w' = calls w ++ new /\
    forall x, In (CallRemoveDuplicateNodes x) new -> length (heap w) <= x.
Proof.
  intros Hrun.
  destruct (clean_overlap_arguments _ _ _ _ _ Hrun) as (ga & gb & Ha & Hb).
  destruct (eng_intersects ga gb) eqn:Hi.
  - rewrite (clean_overlap_overlapping _ _ _ _ _ Ha Hb Hi) in Hrun.
    destruct (eng_isGeosValid (eng_difference ga gb));
      destruct (eng_isEmpty _); inversion Hrun; subst; clear Hrun;
      cbn [heap calls]; rewrite <- ?app_assoc;
      eexists; eexists; (split; [reflexivity|]); (split; [reflexivity|]);
      intros x Hx; cbn in Hx;
      repeat (destruct Hx as [Hx|Hx]; [inversion Hx; lia|]);
      destruct Hx.
  - rewrite (clean_overlap_apart _ _ _ _ _ Ha Hb Hi) in Hrun.
    inversion Hrun; subst; clear Hrun. cbn [heap calls].
    exists []. eexists. rewrite app_nil_r.
    repeat split. intros x [Hx|[]]. discriminate Hx.
Qed.

(** [get_feature_area] changes no object. *)
Lemma get_feature_area_frame w f x w' :
  get_feature_area f w = Some (x, w') -> heap w' = heap w.
Proof.
  destruct (feature_geometry f) as [r|] eqn:Hf.
  - destruct (heap w !! r) as [g|] eqn:Hr.
    + rewrite (get_feature_area_object _ _ _ _ Hf Hr).
      destruct (eng_truthy g); intros H; inversion H; reflexivity.
    + unfold get_feature_area, geometry.
      rewrite (bind_run _ _ w (feature_geometry f) w) by reflexivity.
      rewrite Hf. unfold truth.
      rewrite (bind_raise _ _ _ (bind_raise _ _ _ (deref_raise _ _ Hr))).
      discriminate.
  - rewrite (get_feature_area_absent _ _ Hf).
    intros H; inversion H; reflexivity.
Qed.

End Frames.

(** [clean_overlap] mutates neither argument, whatever the engine. *)
Lemma clean_overlap_never_mutates_input : ~ clean_overlap_mutates_input.
Proof.
  intros (G & E & w & a & b & r & w' & Hrun & Hmut).
  destruct (clean_overlap_frame _ _ _ _ _ Hrun) as (extra & new & Hh & _ & _).
  destruct Hmut as [(g & Hg & Hne)|(g & Hg & Hne)];
    apply Hne; rewrite Hh; now apply lookup_old_object.
Qed.

(** [get_feature_area] mutates no geometry, whatever the engine. *)
Lemma get_feature_area_never_mutates_input : ~ get_feature_area_mutates_input.
Proof.
  intros (G & E & w & f & r & _ & x & w' & Hrun & g & Hg & Hne).
  apply Hne. now rewrite (get_feature_area_frame _ _ _ _ Hrun).
Qed.

(** [clean_geometry_artifacts] changes its argument: on the line engine the
    path 1, 1, 2 is the path 1, 2 after the call. *)
Lemma clean_geometry_artifacts_can_mutate_input :
  clean_geometry_artifacts_mutates_input.
Proof.
  exists Line.geom, Line.engine, (Line.world [Line.Path [1; 1; 2]%Z]), 0.
  eexists; eexists. split; [reflexivity|].
  exists (Line.Path [1; 1; 2]%Z). split; [reflexivity|]. discriminate.
Qed.

(** * The claims *)

(** ** [clean_overlap] *)

(** C2.  When the subject and the clipper do not intersect, [clean_overlap]
    returns the subject itself: the reference that was passed in, with
    every object of the store as it was, after the one call [intersects];
    no [difference] is asked of the engine. *)
Theorem clean_overlap_apart_passthrough {G : Type} {E : Engine G}
    (w : World G) (a b : ref) (ga gb : G) :
  heap w !! a = Some ga -> heap w !! b = Some gb ->
  eng_intersects ga gb = false ->
  returns (clean_overlap a b) w
    (fun r w' =>
       r = a /\ heap w' = heap w /\
       calls w' = calls w ++ [CallIntersects a b]).
Proof.
  intros Ha Hb Hi. exists a. eexists.
  split; [exact (clean_overlap_apart _ _ _ _ _ Ha Hb Hi)|].
  now repeat split.
Qed.

Lemma clean_overlap_apart_passthrough_witness :
  returns (clean_overlap 0 1)
    (Line.world [Line.Path [1; 2; 2; 3]%Z; Line.Path [5; 4]%Z])
    (fun r w' =>
       r = 0 /\
       heap w' = [Line.Path [1; 2; 2; 3]%Z; Line.Path [5; 4]%Z] /\
       calls w' = [] ++ [CallIntersects 0 1]).
Proof.
  exact (clean_overlap_apart_passthrough
           (Line.world [Line.Path [1; 2; 2; 3]%Z; Line.Path [5; 4]%Z]) 0 1
           (Line.Path [1; 2; 2; 3]%Z) (Line.Path [5; 4]%Z)
           eq_refl eq_refl eq_refl).
Defined.

(** C3.  When the subject and the clipper intersect and their difference,
    repaired if it was not valid and then deduplicated, is empty,
    [clean_overlap] returns a new object built by [QgsGeometry()]: it holds
    the canonical empty value, it is no object of the store the call
    started from, and it is another object than the computed one [m], which
    stays in the store with its empty value. *)
Theorem clean_overlap_empty_gives_canonical {G : Type} {E : Engine G}
    (w : World G) (a b : ref) (ga gb : G) :
  heap w !! a = Some ga -> heap w !! b = Some gb ->
  eng_intersects ga gb = true ->
  eng_isEmpty (eng_removeDuplicateNodes (repaired (eng_difference ga gb)))
    = true ->
  returns (clean_overlap a b) w
    (fun r w' =>
       heap w' !! r = Some QgsGeometry_value /\
       heap w !! r = None /\
       exists m before,
         m <> r /\
         heap w' !! m
           = Some (eng_removeDuplicateNodes (repaired (eng_difference ga gb))) /\
         calls w' = before ++ [CallRemoveDuplicateNodes m; CallIsEmpty m;
                               CallQgsGeometry r]).
Proof.
  intros Ha Hb Hi He. unfold returns.
  rewrite (clean_overlap_overlapping _ _ _ _ _ Ha Hb Hi), He.
  eexists; eexists. split; [reflexivity|]. cbn [heap calls].
  unfold repaired. destruct (eng_isGeosValid (eng_difference ga gb)).
  - split; [apply lookup_last_object; rewrite length_app; cbn; lia|].
    split; [apply lookup_ge_None_2; lia|].
    exists (length (heap w)).
    exists (calls w ++ [CallIntersects a b;
                        CallDifference a b (length (heap w));
                        CallIsGeosValid (length (heap w))]).
    split; [lia|].
    split; [apply lookup_old_object; now apply lookup_last_object|].
    rewrite <- !app_assoc. reflexivity.
  - split; [apply lookup_last_object; rewrite length_app; cbn; lia|].
    split; [apply lookup_ge_None_2; lia|].
    exists (S (length (heap w))).
    exists (calls w ++ [CallIntersects a b;
                        CallDifference a b (length (heap w));
                        CallIsGeosValid (length (heap w));
                        CallMakeValid (length (heap w)) (S (length (heap w)))]).
    split; [lia|].
    split.
    { apply lookup_old_object.
      change [eng_difference ga gb;
              eng_removeDuplicateNodes (eng_makeValid (eng_difference ga gb))]
        with ([eng_difference ga gb]
              ++ [eng_removeDuplicateNodes (eng_makeValid (eng_difference ga gb))]).
      rewrite app_assoc. apply lookup_last_object.
      rewrite length_app; cbn; lia. }
    rewrite <- !app_assoc. reflexivity.
Qed.

Lemma clean_overlap_empty_gives_canonical_witness :
  returns (clean_overlap 0 1)
    (Line.world [Line.Path [1; 2]%Z; Line.Path [1; 2; 3]%Z])
    (fun r w' =>
       heap w' !! r = Some Line.Null /\
       [Line.Path [1; 2]%Z; Line.Path [1; 2; 3]%Z] !! r = None /\
       exists m before,
         m <> r /\
         heap w' !! m = Some (Line.Path []) /\
         calls w' = before ++ [CallRemoveDuplicateNodes m; CallIsEmpty m;
                               CallQgsGeometry r]).
Proof.
  exact (clean_overlap_empty_gives_canonical
           (Line.world [Line.Path [1; 2]%Z; Line.Path [1; 2; 3]%Z]) 0 1
           (Line.Path [1; 2]%Z) (Line.Path [1; 2; 3]%Z)
           eq_refl eq_refl eq_refl eq_refl).
Defined.

(** C1, as the code has it.  Take an engine whose repair gives a valid
    geometry and whose deduplication leaves no duplicate vertex ([clean])
    and keeps a valid geometry valid.  When the subject and the clipper
    intersect and their repaired, deduplicated difference is not empty, the
    geometry [clean_overlap] returns is valid and has no duplicate vertex. *)
Theorem clean_overlap_result_valid_and_clean {G : Type} {E : Engine G}
    (clean : G -> bool) (w : World G) (a b : ref) (ga gb : G) :
  (forall g, eng_isGeosValid (eng_makeValid g) = true) ->
  (forall g, clean (eng_removeDuplicateNodes g) = true) ->
  (forall g, eng_isGeosValid g = true ->
             eng_isGeosValid (eng_removeDuplicateNodes g) = true) ->
  heap w !! a = Some ga -> heap w !! b = Some gb ->
  eng_intersects ga gb = true ->
  eng_isEmpty (eng_removeDuplicateNodes (repaired (eng_difference ga gb)))
    = false ->
  returns (clean_overlap a b) w
    (fun r w' =>
       exists g, heap w' !! r = Some g /\
                 eng_isGeosValid g = true /\ clean g = true).
Proof.
  intros Hrepair Hclean Hkeep Ha Hb Hi He. unfold returns.
  rewrite (clean_overlap_overlapping _ _ _ _ _ Ha Hb Hi), He.
  eexists; eexists. split; [reflexivity|]. cbn [heap].
  exists (eng_removeDuplicateNodes (repaired (eng_difference ga gb))).
  split; [|split].
  - unfold repaired. destruct (eng_isGeosValid (eng_difference ga gb)).
    + now apply lookup_last_object.
    + change [eng_difference ga gb;
              eng_removeDuplicateNodes (eng_makeValid (eng_difference ga gb))]
        with ([eng_difference ga gb]
              ++ [eng_removeDuplicateNodes (eng_makeValid (eng_difference ga gb))]).
      rewrite app_assoc. apply lookup_last_object.
      rewrite length_app; cbn; lia.
  - apply Hkeep. unfold repaired.
    destruct (eng_isGeosValid (eng_difference ga gb)) eqn:Hv;
      [exact Hv|apply Hrepair].
  - apply Hclean.
Qed.

Lemma clean_overlap_result_valid_and_clean_witness :
  returns (clean_overlap 0 1)
    (Line.world [Line.Path [5; 1; 2; 2; 3]%Z; Line.Path [3; 4]%Z])
    (fun r w' =>
       exists g, heap w' !! r = Some g /\
                 eng_isGeosValid g = true /\
                 Line.no_duplicate_nodes g = true).
Proof.
  exact (clean_overlap_result_valid_and_clean Line.no_duplicate_nodes
           (Line.world [Line.Path [5; 1; 2; 2; 3]%Z; Line.Path [3; 4]%Z]) 0 1
           (Line.Path [5; 1; 2; 2; 3]%Z) (Line.Path [3; 4]%Z)
           LineFacts.makeValid_valid LineFacts.removeDuplicateNodes_clean
           LineFacts.removeDuplicateNodes_keeps_valid
           eq_refl eq_refl eq_refl eq_refl).
Defined.

(** C1, as stated, fails where the clipper covers the subject.  On the
    line engine, whose repair and deduplication keep the contract above,
    the subject 1, 2 and the clipper 1, 2, 3 intersect; the difference is
    the empty path, so [clean_overlap] returns a new [QgsGeometry()], the
    null geometry, and the validity predicate is false on it. *)
Lemma clean_overlap_covered_subject_not_valid :
  let w := Line.world [Line.Path [1; 2]%Z; Line.Path [1; 2; 3]%Z] in
  eng_intersects (Line.Path [1; 2]%Z) (Line.Path [1; 2; 3]%Z) = true /\
  (exists w', clean_overlap 0 1 w = Some (3, w') /\
              heap w' !! 3 = Some Line.Null /\
              eng_isGeosValid Line.Null = false) /\
  ~ returns (clean_overlap 0 1) w
      (fun r w' =>
         exists g, heap w' !! r = Some g /\
                   eng_isGeosValid g = true /\
                   Line.no_duplicate_nodes g = true).
Proof.
  cbv zeta. split; [reflexivity|]. split.
  - eexists. split; [reflexivity|]. split; reflexivity.
  - intros (r & w' & Hrun & g & Hg & Hvalid & _).
    vm_compute in Hrun. inversion Hrun; subst; clear Hrun.
    cbn in Hg. inversion Hg; subst. discriminate Hvalid.
Qed.

(** C9.  [clean_overlap] leaves its two arguments as they were, and every
    other object of the store too: the run returns, the subject and the
    clipper hold the values they held before, and each
    [removeDuplicateNodes] the run asks for is on an object that did not
    exist when the call started. *)
Theorem clean_overlap_keeps_arguments {G : Type} {E : Engine G}
    (w : World G) (a b : ref) (ga gb : G) :
  heap w !! a = Some ga -> heap w !! b = Some gb ->
  returns (clean_overlap a b) w
    (fun _ w' =>
       heap w' !! a = Some ga /\ heap w' !! b = Some gb /\
       (forall x g, heap w !! x = Some g -> heap w' !! x = Some g) /\
       exists new,
         calls w' = calls w ++ new /\
         forall x, In (CallRemoveDuplicateNodes x) new -> heap w !! x = None).
Proof.
  intros Ha Hb.
  destruct (clean_overlap_total _ _ _ _ _ Ha Hb) as (r & w' & Hrun).
  exists r, w'. split; [exact Hrun|].
  destruct (clean_overlap_frame _ _ _ _ _ Hrun) as (extra & new & Hh & Hc & Hd).
  rewrite Hh.
  split; [now apply lookup_old_object|].
  split; [now apply lookup_old_object|].
  split; [intros x g Hx; now apply lookup_old_object|].
  exists new. split; [exact Hc|].
  intros x Hx. apply lookup_ge_None_2. now apply Hd.
Qed.

Lemma clean_overlap_keeps_arguments_witness :
  returns (clean_overlap 0 1)
    (Line.world [Line.Path [5; 1; 2; 2; 3]%Z; Line.Path [3; 4]%Z])
    (fun _ w' =>
       heap w' !! 0 = Some (Line.Path [5; 1; 2; 2; 3]%Z) /\
       heap w' !! 1 = Some (Line.Path [3; 4]%Z) /\
       (forall x g,
           [Line.Path [5; 1; 2; 2; 3]%Z; Line.Path [3; 4]%Z] !! x = Some g ->
           heap w' !! x = Some g) /\
       exists new,
         calls w' = [] ++ new /\
         forall x, In (CallRemoveDuplicateNodes x) new ->
                   [Line.Path [5; 1; 2; 2; 3]%Z; Line.Path [3; 4]%Z] !! x = None).
Proof.
  exact (clean_overlap_keeps_arguments
           (Line.world [Line.Path [5; 1; 2; 2; 3]%Z; Line.Path [3; 4]%Z]) 0 1
           (Line.Path [5; 1; 2; 2; 3]%Z) (Line.Path [3; 4]%Z)
           eq_refl eq_refl).
Defined.

(** ** Which of the three functions change an argument *)

(** C8, as stated, fails: it is not the case that exactly two of the three
    functions mutate an input geometry.  [clean_overlap] and
    [get_feature_area] mutate none. *)
Lemma not_exactly_two_functions_mutate_input :
  ~ exactly_two clean_overlap_mutates_input
      clean_geometry_artifacts_mutates_input
      get_feature_area_mutates_input.
Proof.
  intros [(Hco & _ & _)|[(Hco & _ & _)|(_ & _ & Hgfa)]].
  - exact (clean_overlap_never_mutates_input Hco).
  - exact (clean_overlap_never_mutates_input Hco).
  - exact (get_feature_area_never_mutates_input Hgfa).
Qed.

(** C8, as the code has it.  Exactly one of the three functions mutates an
    input geometry in place: [clean_geometry_artifacts] does, [clean_overlap]
    and [get_feature_area] never do, whatever the engine. *)
Theorem only_clean_geometry_artifacts_mutates_input :
  clean_geometry_artifacts_mutates_input /\
  ~ clean_overlap_mutates_input /\
  ~ get_feature_area_mutates_input.
Proof.
  split; [exact clean_geometry_artifacts_can_mutate_input|].
  split; [exact clean_overlap_never_mutates_input|].
  exact get_feature_area_never_mutates_input.
Qed.

(** ** [clean_geometry_artifacts] *)

(** C5.  On an empty geometry [clean_geometry_artifacts] returns the
    reference it was given, every object of the store is as it was, and the
    only call made is the [isEmpty] test: no deduplication, no validity
    test, no repair. *)
Theorem clean_geometry_artifacts_empty_unchanged {G : Type} {E : Engine G}
    (w : World G) (r : ref) (g : G) :
  heap w !! r = Some g -> eng_isEmpty g = true ->
  returns (clean_geometry_artifacts r) w
    (fun r' w' =>
       r' = r /\ heap w' = heap w /\ calls w' = calls w ++ [CallIsEmpty r]).
Proof.
  intros Hr He. exists r. eexists.
  split; [exact (clean_geometry_artifacts_empty _ _ _ Hr He)|].
  now repeat split.
Qed.

Lemma clean_geometry_artifacts_empty_unchanged_witness :
  returns (clean_geometry_artifacts 0) (Line.world [Line.Path []])
    (fun r' w' =>
       r' = 0 /\ heap w' = [Line.Path []] /\ calls w' = [] ++ [CallIsEmpty 0]).
Proof.
  exact (clean_geometry_artifacts_empty_unchanged
           (Line.world [Line.Path []]) 0 (Line.Path []) eq_refl eq_refl).
Defined.

(** The geometry [clean_geometry_artifacts] returns for an argument that is
    not empty passes the validity test, when a repair gives a valid
    geometry: either the deduplicated argument passed the test, or the
    result is its repair. *)
Lemma clean_geometry_artifacts_result_valid {G : Type} {E : Engine G}
    (w : World G) (r : ref) (g : G) :
  (forall x, eng_isGeosValid (eng_makeValid x) = true) ->
  heap w !! r = Some g -> eng_isEmpty g = false ->
  returns (clean_geometry_artifacts r) w
    (fun r' w' =>
       exists g', heap w' !! r' = Some g' /\ eng_isGeosValid g' = true).
Proof.
  intros Hrepair Hr He. unfold returns.
  assert (Hlt : r < length (heap w)) by (eapply lookup_lt_Some; eassumption).
  rewrite (clean_geometry_artifacts_nonempty _ _ _ Hr He).
  destruct (eng_isGeosValid (eng_removeDuplicateNodes g)) eqn:Hv.
  - eexists; eexists. split; [reflexivity|]. cbn [heap].
    exists (eng_removeDuplicateNodes g).
    split; [now apply list_lookup_insert_eq|exact Hv].
  - eexists; eexists. split; [reflexivity|]. cbn [heap].
    exists (eng_makeValid (eng_removeDuplicateNodes g)).
    split; [|apply Hrepair].
    apply lookup_last_object. now rewrite length_insert.
Qed.

(** C6.  For a geometry that is not empty and not valid, the geometry
    [clean_geometry_artifacts] returns passes the engine's validity test,
    the engine's repair being one that gives a valid geometry. *)
Theorem clean_geometry_artifacts_repairs_invalid {G : Type} {E : Engine G}
    (w : World G) (r : ref) (g : G) :
  (forall x, eng_isGeosValid (eng_makeValid x) = true) ->
  heap w !! r = Some g -> eng_isEmpty g = false ->
  eng_isGeosValid g = false ->
  returns (clean_geometry_artifacts r) w
    (fun r' w' =>
       exists g', heap w' !! r' = Some g' /\ eng_isGeosValid g' = true).
Proof.
  intros Hrepair Hr He _.
  now apply clean_geometry_artifacts_result_valid with (g := g).
Qed.

Lemma clean_geometry_artifacts_repairs_invalid_witness :
  returns (clean_geometry_artifacts 0)
    (Line.world [Line.Path [1; 5; 2; 2; 3]%Z])
    (fun r' w' =>
       exists g', heap w' !! r' = Some g' /\ eng_isGeosValid g' = true).
Proof.
  exact (clean_geometry_artifacts_repairs_invalid
           (Line.world [Line.Path [1; 5; 2; 2; 3]%Z]) 0
           (Line.Path [1; 5; 2; 2; 3]%Z)
           LineFacts.makeValid_valid eq_refl eq_refl eq_refl).
Defined.

(** ** The order of the steps *)

(** C7.  The two cleaners take their steps in opposite orders.  On an
    argument that is not empty, [clean_geometry_artifacts] deduplicates it
    first, whatever its validity, then tests the validity of the
    deduplicated object and asks for a repair exactly when the test fails:
    the result is the repair of the deduplicated value.  On arguments that
    intersect, [clean_overlap] tests the validity of the difference first,
    asks for a repair exactly when the test fails, and deduplicates
    afterwards the object [m] it is left with: that object holds the
    deduplication of the repaired value. *)
Theorem cleaners_take_steps_in_opposite_orders {G : Type} {E : Engine G}
    (w : World G) :
  (forall r g,
      heap w !! r = Some g -> eng_isEmpty g = false ->
      returns (clean_geometry_artifacts r) w
        (fun r' w' =>
           calls w' = calls w
                      ++ [CallIsEmpty r; CallRemoveDuplicateNodes r;
                          CallIsGeosValid r]
                      ++ (if eng_isGeosValid (eng_removeDuplicateNodes g)
                          then [] else [CallMakeValid r r']) /\
           heap w' !! r' = Some (repaired (eng_removeDuplicateNodes g)))) /\
  (forall a b ga gb,
      heap w !! a = Some ga -> heap w !! b = Some gb ->
      eng_intersects ga gb = true ->
      returns (clean_overlap a b) w
        (fun _ w' =>
           exists m rest,
             calls w' = calls w
                        ++ [CallIntersects a b;
                            CallDifference a b (length (heap w));
                            CallIsGeosValid (length (heap w))]
                        ++ (if eng_isGeosValid (eng_difference ga gb)
                            then [] else [CallMakeValid (length (heap w)) m])
                        ++ [CallRemoveDuplicateNodes m] ++ rest /\
             heap w' !! m
               = Some (eng_removeDuplicateNodes
                         (repaired (eng_difference ga gb))))).
Proof.
  split.
  - intros r g Hr He. unfold returns, repaired.
    assert (Hlt : r < length (heap w)) by (eapply lookup_lt_Some; eassumption).
    rewrite (clean_geometry_artifacts_nonempty _ _ _ Hr He).
    destruct (eng_isGeosValid (eng_removeDuplicateNodes g)).
    + eexists; eexists. split; [reflexivity|]. cbn [heap calls].
      split; [now rewrite app_nil_r|now apply list_lookup_insert_eq].
    + eexists; eexists. split; [reflexivity|]. cbn [heap calls].
      split; [now rewrite <- app_assoc|].
      apply lookup_last_object. now rewrite length_insert.
  - intros a b ga gb Ha Hb Hi. unfold returns.
    rewrite (clean_overlap_overlapping _ _ _ _ _ Ha Hb Hi).
    unfold repaired.
    destruct (eng_isGeosValid (eng_difference ga gb));
      destruct (eng_isEmpty _);
      eexists; eexists; (split; [reflexivity|]); cbn [heap calls].
    + exists (length (heap w)),
        [CallIsEmpty (length (heap w));
         CallQgsGeometry (S (length (heap w)))].
      split; [rewrite <- !app_assoc; reflexivity|].
      apply lookup_old_object. now apply lookup_last_object.
    + exists (length (heap w)), [CallIsEmpty (length (heap w))].
      split; [reflexivity|]. now apply lookup_last_object.
    + exists (S (length (heap w))),
        [CallIsEmpty (S (length (heap w)));
         CallQgsGeometry (S (S (length (heap w))))].
      split; [rewrite <- !app_assoc; reflexivity|].
      apply lookup_old_object.
      change [eng_difference ga gb;
              eng_removeDuplicateNodes (eng_makeValid (eng_difference ga gb))]
        with ([eng_difference ga gb]
              ++ [eng_removeDuplicateNodes (eng_makeValid (eng_difference ga gb))]).
      rewrite app_assoc. apply lookup_last_object.
      rewrite length_app; cbn; lia.
    + exists (S (length (heap w))), [CallIsEmpty (S (length (heap w)))].
      split; [reflexivity|].
      change [eng_difference ga gb;
              eng_removeDuplicateNodes (eng_makeValid (eng_difference ga gb))]
        with ([eng_difference ga gb]
              ++ [eng_removeDuplicateNodes (eng_makeValid (eng_difference ga gb))]).
      rewrite app_assoc. apply lookup_last_object.
      rewrite length_app; cbn; lia.
Qed.

Lemma cleaners_take_steps_in_opposite_orders_witness :
  returns (clean_geometry_artifacts 0)
    (Line.world [Line.Path [1; 5; 2; 2; 3]%Z; Line.Path [3; 4]%Z])
    (fun r' w' =>
       calls w' = [] ++ [CallIsEmpty 0; CallRemoveDuplicateNodes 0;
                         CallIsGeosValid 0] ++ [CallMakeValid 0 r'] /\
       heap w' !! r' = Some (Line.Path [1; 2; 3; 5]%Z)) /\
  returns (clean_overlap 0 1)
    (Line.world [Line.Path [1; 5; 2; 2; 3]%Z; Line.Path [3; 4]%Z])
    (fun _ w' =>
       exists m rest,
         calls w' = [] ++ [CallIntersects 0 1; CallDifference 0 1 2;
                           CallIsGeosValid 2]
                       ++ [CallMakeValid 2 m]
                       ++ [CallRemoveDuplicateNodes m] ++ rest /\
         heap w' !! m = Some (Line.Path [1; 2; 5]%Z)).
Proof.
  pose proof (cleaners_take_steps_in_opposite_orders
                (Line.world [Line.Path [1; 5; 2; 2; 3]%Z; Line.Path [3; 4]%Z]))
    as [Hartifacts Hoverlap].
  split.
  - exact (Hartifacts 0 (Line.Path [1; 5; 2; 2; 3]%Z) eq_refl eq_refl).
  - exact (Hoverlap 0 1 (Line.Path [1; 5; 2; 2; 3]%Z) (Line.Path [3; 4]%Z)
             eq_refl eq_refl eq_refl).
Defined.

(** ** [get_feature_area] *)

(** C4.  When the geometry accessor yields a geometry object that passes
    the truth test, [get_feature_area] returns what the engine's [area]
    gives for that geometry, after the truth test and the one [area] call;
    when the accessor yields nothing, it returns 0.0, makes no engine call
    and does not raise. *)
Theorem get_feature_area_present_or_absent {G : Type} {E : Engine G}
    (w : World G) (f : QgsFeature) :
  (forall r g,
      feature_geometry f = Some r -> heap w !! r = Some g ->
      eng_truthy g = true ->
      get_feature_area f w
        = Some (eng_area g,
                {| heap := heap w;
                   calls := calls w ++ [CallBool r; CallArea r] |})) /\
  (feature_geometry f = None ->
   get_feature_area f w = Some (0%float, w)).
Proof.
  split.
  - intros r g Hf Hr Ht.
    now rewrite (get_feature_area_object _ _ _ _ Hf Hr), Ht.
  - apply get_feature_area_absent.
Qed.

Lemma get_feature_area_present_or_absent_witness :
  get_feature_area {| feature_geometry := Some 0 |}
      (Line.world [Line.Path [1; 2; 2; 5]%Z])
    = Some (4%float,
            {| heap := [Line.Path [1; 2; 2; 5]%Z];
               calls := [] ++ [CallBool 0; CallArea 0] |}) /\
  get_feature_area {| feature_geometry := None |}
      (Line.world [Line.Path [1; 2; 2; 5]%Z])
    = Some (0%float, Line.world [Line.Path [1; 2; 2; 5]%Z]).
Proof.
  split.
  - exact (proj1 (get_feature_area_present_or_absent
                    (Line.world [Line.Path [1; 2; 2; 5]%Z])
                    {| feature_geometry := Some 0 |})
             0 (Line.Path [1; 2; 2; 5]%Z) eq_refl eq_refl eq_refl).
  - exact (proj2 (get_feature_area_present_or_absent
                    (Line.world [Line.Path [1; 2; 2; 5]%Z])
                    {| feature_geometry := None |})
             eq_refl).
Defined.

(** C10.  When the geometry accessor yields a geometry object that fails
    the truth test, [get_feature_area] returns 0.0 after the truth test
    alone: the engine's [area] is not called on that geometry. *)
Theorem get_feature_area_falsy_geometry {G : Type} {E : Engine G}
    (w : World G) (f : QgsFeature) (r : ref) (g : G) :
  feature_geometry f = Some r -> heap w !! r = Some g ->
  eng_truthy g = false ->
  get_feature_area f w
    = Some (0%float, {| heap := heap w; calls := calls w ++ [CallBool r] |}).
Proof.
  intros Hf Hr Ht.
  now rewrite (get_feature_area_object _ _ _ _ Hf Hr), Ht.
Qed.

Lemma get_feature_area_falsy_geometry_witness :
  get_feature_area {| feature_geometry := Some 0 |} (Line.world [Line.Null])
    = Some (0%float, {| heap := [Line.Null]; calls := [] ++ [CallBool 0] |}).
Proof.
  exact (get_feature_area_falsy_geometry (Line.world [Line.Null])
           {| feature_geometry := Some 0 |} 0 Line.Null
           eq_refl eq_refl eq_refl).
Defined.

(** * Further properties of the three functions *)

(** ** Objects added at the end of the store *)

Section NewObjects.

Context {G : Type}.

Implicit Types (h l : list G) (x y z : G).

Lemma lookup_added_first h x l : (h ++ x :: l) !! length h = Some x.
Proof. now apply list_lookup_middle. Qed.

Lemma lookup_added_second h x y l :
  (h ++ x :: y :: l) !! S (length h) = Some y.
Proof.
  change (x :: y :: l) with ([x] ++ y :: l). rewrite app_assoc.
  apply list_lookup_middle. rewrite length_app. cbn. lia.
Qed.

Lemma lookup_added_third h x y z l :
  (h ++ x :: y :: z :: l) !! S (S (length h)) = Some z.
Proof.
  change (x :: y :: z :: l) with ([x; y] ++ z :: l). rewrite app_assoc.
  apply list_lookup_middle. rewrite length_app. cbn. lia.
Qed.

End NewObjects.

(** ** Results and frames, for every engine *)

Section Results.

Context {G : Type} {E : Engine G}.

Implicit Types (w : World G) (a b r : ref) (g : G).

(** The value of the object [clean_overlap] returns: the subject's value
    when the arguments are apart; otherwise the repaired, deduplicated
    difference, or the constructor's value when that is empty.  The store
    of the final world is the initial one with objects added at its end. *)
Lemma clean_overlap_result_holds w a b ga gb r w' :
  heap w !! a = Some ga -> heap w !! b = Some gb ->
  clean_overlap a b w = Some (r, w') ->
  heap w' !! r
    = Some (if eng_intersects ga gb
            then if eng_isEmpty (eng_removeDuplicateNodes
                                   (repaired (eng_difference ga gb)))
                 then QgsGeometry_value
                 else eng_removeDuplicateNodes (repaired (eng_difference ga gb))
            else ga) /\
  (eng_intersects ga gb = true -> length (heap w) <= r) /\
  exists extra, heap w' = heap w ++ extra.
Proof.
  intros Ha Hb Hrun. destruct (eng_intersects ga gb) eqn:Hi.
  - rewrite (clean_overlap_overlapping _ _ _ _ _ Ha Hb Hi) in Hrun.
    unfold repaired in *.
    destruct (eng_isGeosValid (eng_difference ga gb));
      destruct (eng_isEmpty _); inversion Hrun; subst; clear Hrun;
      cbn [heap]; rewrite <- ?app_assoc; cbn [app];
      (split; [|split; [intros _; lia|eexists; reflexivity]]).
    + apply lookup_added_second.
    + apply lookup_added_first.
    + apply lookup_added_third.
    + apply lookup_added_second.
  - rewrite (clean_overlap_apart _ _ _ _ _ Ha Hb Hi) in Hrun.
    inversion Hrun; subst; clear Hrun. cbn [heap].
    split; [assumption|]. split; [discriminate|].
    exists []. now rewrite app_nil_r.
Qed.

Lemma clean_geometry_artifacts_total w r g :
  heap w !! r = Some g ->
  exists r' w', clean_geometry_artifacts r w = Some (r', w').
Proof.
  intros Hr. destruct (eng_isEmpty g) eqn:He.
  - rewrite (clean_geometry_artifacts_empty _ _ _ Hr He). eauto.
  - rewrite (clean_geometry_artifacts_nonempty _ _ _ Hr He).
    destruct (eng_isGeosValid _); eauto.
Qed.

(** [clean_geometry_artifacts] changes no object but its argument. *)
Lemma clean_geometry_artifacts_frame w r g r' w' :
  heap w !! r = Some g ->
  clean_geometry_artifacts r w = Some (r', w') ->
  forall x v, x <> r -> heap w !! x = Some v -> heap w' !! x = Some v.
Proof.
  intros Hr Hrun x v Hx Hv. destruct (eng_isEmpty g) eqn:He.
  - rewrite (clean_geometry_artifacts_empty _ _ _ Hr He) in Hrun.
    inversion Hrun; subst. exact Hv.
  - rewrite (clean_geometry_artifacts_nonempty _ _ _ Hr He) in Hrun.
    destruct (eng_isGeosValid _); inversion Hrun; subst; clear Hrun;
      cbn [heap].
    + rewrite list_lookup_insert_ne by congruence. exact Hv.
    + apply lookup_old_object.
      rewrite list_lookup_insert_ne by congruence. exact Hv.
Qed.

(** What [get_feature_area] returns is read off the store alone. *)
Lemma get_feature_area_reads_store w1 w2 f :
  heap w1 = heap w2 ->
  (forall r, feature_geometry f = Some r -> exists g, heap w1 !! r = Some g) ->
  exists x w1' w2',
    get_feature_area f w1 = Some (x, w1') /\
    get_feature_area f w2 = Some (x, w2') /\
    heap w1' = heap w1 /\ heap w2' = heap w2.
Proof.
  intros Hh Hobj. destruct (feature_geometry f) as [r|] eqn:Hf.
  - destruct (Hobj r eq_refl) as [g Hr].
    assert (Hr2 : heap w2 !! r = Some g) by now rewrite <- Hh.
    rewrite (get_feature_area_object _ _ _ _ Hf Hr),
            (get_feature_area_object _ _ _ _ Hf Hr2).
    destruct (eng_truthy g); eexists; eexists; eexists; repeat split.
  - rewrite !(get_feature_area_absent _ _ Hf).
    eexists; eexists; eexists; repeat split.
Qed.

End Results.

(** ** [clean_overlap]: what is returned and what is asked of the engine *)

(** X1.  [clean_overlap] hands back the very object it was given as subject
    exactly when the two arguments do not intersect.  When they intersect,
    the result is an object that did not exist before the call, so it is
    an alias of neither argument; in both cases it is an object of the
    final store. *)
Theorem clean_overlap_returns_subject_iff_apart {G : Type} {E : Engine G}
    (w : World G) (a b : ref) (ga gb : G) :
  heap w !! a = Some ga -> heap w !! b = Some gb ->
  returns (clean_overlap a b) w
    (fun r w' =>
       (r = a <-> eng_intersects ga gb = false) /\
       (eng_intersects ga gb = true -> heap w !! r = None) /\
       exists g, heap w' !! r = Some g).
Proof.
  intros Ha Hb.
  destruct (clean_overlap_total _ _ _ _ _ Ha Hb) as (r & w' & Hrun).
  exists r, w'. split; [exact Hrun|].
  destruct (clean_overlap_result_holds _ _ _ _ _ _ _ Ha Hb Hrun)
    as (Hval & Hnew & _).
  assert (Hlt : a < length (heap w)) by (eapply lookup_lt_Some; eassumption).
  split; [|split].
  - destruct (eng_intersects ga gb) eqn:Hi.
    + specialize (Hnew eq_refl). split; [lia|discriminate].
    + rewrite (clean_overlap_apart _ _ _ _ _ Ha Hb Hi) in Hrun.
      inversion Hrun. now split.
  - intros Hi. apply lookup_ge_None_2. now apply Hnew.
  - eexists. exact Hval.
Qed.

Lemma clean_overlap_returns_subject_iff_apart_witness :
  returns (clean_overlap 0 1)
    (Line.world [Line.Path [5; 1; 2; 2; 3]%Z; Line.Path [3; 4]%Z])
    (fun r w' =>
       (r = 0 <-> true = false) /\
       (true = true ->
        [Line.Path [5; 1; 2; 2; 3]%Z; Line.Path [3; 4]%Z] !! r = None) /\
       exists g, heap w' !! r = Some g).
Proof.
  exact (clean_overlap_returns_subject_iff_apart
           (Line.world [Line.Path [5; 1; 2; 2; 3]%Z; Line.Path [3; 4]%Z]) 0 1
           (Line.Path [5; 1; 2; 2; 3]%Z) (Line.Path [3; 4]%Z)
           eq_refl eq_refl).
Defined.

(** X2.  When the arguments intersect and the repaired, deduplicated
    difference is not empty, the object [clean_overlap] returns holds
    exactly that value: the deduplication of the difference itself when the
    difference is valid, of its repair when it is not.  No assumption on
    the engine is needed. *)
Theorem clean_overlap_result_is_cleaned_difference {G : Type} {E : Engine G}
    (w : World G) (a b : ref) (ga gb : G) :
  heap w !! a = Some ga -> heap w !! b = Some gb ->
  eng_intersects ga gb = true ->
  eng_isEmpty (eng_removeDuplicateNodes (repaired (eng_difference ga gb)))
    = false ->
  returns (clean_overlap a b) w
    (fun r w' =>
       heap w' !! r
         = Some (eng_removeDuplicateNodes
                   (if eng_isGeosValid (eng_difference ga gb)
                    then eng_difference ga gb
                    else eng_makeValid (eng_difference ga gb)))).
Proof.
  intros Ha Hb Hi He.
  destruct (clean_overlap_total _ _ _ _ _ Ha Hb) as (r & w' & Hrun).
  exists r, w'. split; [exact Hrun|].
  destruct (clean_overlap_result_holds _ _ _ _ _ _ _ Ha Hb Hrun)
    as (Hval & _ & _).
  rewrite Hi, He in Hval. exact Hval.
Qed.

Lemma clean_overlap_result_is_cleaned_difference_witness :
  returns (clean_overlap 0 1)
    (Line.world [Line.Path [5; 1; 2; 2; 3]%Z; Line.Path [3; 4]%Z])
    (fun r w' => heap w' !! r = Some (Line.Path [1; 2; 5]%Z)).
Proof.
  exact (clean_overlap_result_is_cleaned_difference
           (Line.world [Line.Path [5; 1; 2; 2; 3]%Z; Line.Path [3; 4]%Z]) 0 1
           (Line.Path [5; 1; 2; 2; 3]%Z) (Line.Path [3; 4]%Z)
           eq_refl eq_refl eq_refl eq_refl).
Defined.

(** X3.  The only difference [clean_overlap] ever asks for is subject minus
    clipper, into a new object: the reverse difference, clipper minus
    subject, that the comments of the function describe is never computed
    (unless both arguments are one object), and [area] is never called. *)
Theorem clean_overlap_only_forward_difference {G : Type} {E : Engine G}
    (w : World G) (a b : ref) (ga gb : G) :
  heap w !! a = Some ga -> heap w !! b = Some gb ->
  returns (clean_overlap a b) w
    (fun _ w' =>
       exists new,
         calls w' = calls w ++ new /\
         (forall x y out,
             In (CallDifference x y out) new ->
             x = a /\ y = b /\ heap w !! out = None) /\
         (forall x, ~ In (CallArea x) new)).
Proof.
  intros Ha Hb.
  assert (Hfresh : heap w !! length (heap w) = None)
    by (apply lookup_ge_None_2; lia).
  unfold returns. destruct (eng_intersects ga gb) eqn:Hi.
  - rewrite (clean_overlap_overlapping _ _ _ _ _ Ha Hb Hi).
    destruct (eng_isGeosValid (eng_difference ga gb));
      destruct (eng_isEmpty _);
      eexists; eexists; (split; [reflexivity|]); cbn [calls];
      rewrite <- ?app_assoc; cbn [app];
      eexists; (split; [reflexivity|]); split;
      try (intros x y out Hin; cbn in Hin;
           repeat (destruct Hin as [Hin|Hin];
                   [inversion Hin; subst; now repeat split|]);
           destruct Hin);
      intros x Hin; cbn in Hin;
      repeat (destruct Hin as [Hin|Hin]; [discriminate Hin|]);
      destruct Hin.
  - rewrite (clean_overlap_apart _ _ _ _ _ Ha Hb Hi).
    eexists; eexists. split; [reflexivity|]. cbn [calls].
    eexists. split; [reflexivity|]. split.
    + intros x y out [Hin|[]]. discriminate Hin.
    + intros x [Hin|[]]. discriminate Hin.
Qed.

Lemma clean_overlap_only_forward_difference_witness :
  returns (clean_overlap 0 1)
    (Line.world [Line.Path [5; 1; 2; 2; 3]%Z; Line.Path [3; 4]%Z])
    (fun _ w' =>
       exists new,
         calls w' = [] ++ new /\
         (forall x y out,
             In (CallDifference x y out) new ->
             x = 0 /\ y = 1 /\
             [Line.Path [5; 1; 2; 2; 3]%Z; Line.Path [3; 4]%Z] !! out = None) /\
         (forall x, ~ In (CallArea x) new)).
Proof.
  exact (clean_overlap_only_forward_difference
           (Line.world [Line.Path [5; 1; 2; 2; 3]%Z; Line.Path [3; 4]%Z]) 0 1
           (Line.Path [5; 1; 2; 2; 3]%Z) (Line.Path [3; 4]%Z)
           eq_refl eq_refl).
Defined.

(** ** [clean_geometry_artifacts]: the argument and the result *)

(** X4.  On a geometry that is not empty, [clean_geometry_artifacts]
    leaves the object it was given holding the deduplicated value, also
    when the geometry needed a repair: the repair goes to another object,
    so the caller's object is then deduplicated but not repaired.  Every
    other object of the store keeps its value. *)
Theorem clean_geometry_artifacts_argument_after {G : Type} {E : Engine G}
    (w : World G) (r : ref) (g : G) :
  heap w !! r = Some g -> eng_isEmpty g = false ->
  returns (clean_geometry_artifacts r) w
    (fun _ w' =>
       heap w' !! r = Some (eng_removeDuplicateNodes g) /\
       forall x v, x <> r -> heap w !! x = Some v -> heap w' !! x = Some v).
Proof.
  intros Hr He.
  destruct (clean_geometry_artifacts_total _ _ _ Hr) as (r' & w' & Hrun).
  exists r', w'. split; [exact Hrun|].
  split; [|exact (clean_geometry_artifacts_frame _ _ _ _ _ Hr Hrun)].
  assert (Hlt : r < length (heap w)) by (eapply lookup_lt_Some; eassumption).
  rewrite (clean_geometry_artifacts_nonempty _ _ _ Hr He) in Hrun.
  destruct (eng_isGeosValid _); inversion Hrun; subst; clear Hrun; cbn [heap].
  - now apply list_lookup_insert_eq.
  - apply lookup_old_object. now apply list_lookup_insert_eq.
Qed.

Lemma clean_geometry_artifacts_argument_after_witness :
  returns (clean_geometry_artifacts 0)
    (Line.world [Line.Path [1; 5; 2; 2; 3]%Z; Line.Path [3; 4]%Z])
    (fun _ w' =>
       heap w' !! 0 = Some (Line.Path [1; 5; 2; 3]%Z) /\
       forall x v,
         x <> 0 ->
         [Line.Path [1; 5; 2; 2; 3]%Z; Line.Path [3; 4]%Z] !! x = Some v ->
         heap w' !! x = Some v).
Proof.
  exact (clean_geometry_artifacts_argument_after
           (Line.world [Line.Path [1; 5; 2; 2; 3]%Z; Line.Path [3; 4]%Z]) 0
           (Line.Path [1; 5; 2; 2; 3]%Z) eq_refl eq_refl).
Defined.

(** X5.  [clean_geometry_artifacts] returns the object it was given exactly
    when the geometry is empty or is valid once deduplicated; in the one
    remaining case, a repair, the result is an object that did not exist
    before the call. *)
Theorem clean_geometry_artifacts_returns_argument_iff
    {G : Type} {E : Engine G} (w : World G) (r : ref) (g : G) :
  heap w !! r = Some g ->
  returns (clean_geometry_artifacts r) w
    (fun r' w' =>
       (r' = r <->
        eng_isEmpty g = true \/
        eng_isGeosValid (eng_removeDuplicateNodes g) = true) /\
       (r' <> r -> heap w !! r' = None)).
Proof.
  intros Hr. unfold returns.
  assert (Hlt : r < length (heap w)) by (eapply lookup_lt_Some; eassumption).
  destruct (eng_isEmpty g) eqn:He.
  - rewrite (clean_geometry_artifacts_empty _ _ _ Hr He).
    eexists; eexists. split; [reflexivity|]. split; [|congruence].
    split; [now left|reflexivity].
  - rewrite (clean_geometry_artifacts_nonempty _ _ _ Hr He).
    destruct (eng_isGeosValid (eng_removeDuplicateNodes g)).
    + eexists; eexists. split; [reflexivity|]. split; [|congruence].
      split; [now right|reflexivity].
    + eexists; eexists. split; [reflexivity|]. split.
      * split; [lia|]. intros [H|H]; discriminate H.
      * intros _. apply lookup_ge_None_2. lia.
Qed.

Lemma clean_geometry_artifacts_returns_argument_iff_witness :
  returns (clean_geometry_artifacts 0)
    (Line.world [Line.Path [1; 5; 2; 2; 3]%Z; Line.Path [3; 4]%Z])
    (fun r' w' =>
       (r' = 0 <-> false = true \/ false = true) /\
       (r' <> 0 ->
        [Line.Path [1; 5; 2; 2; 3]%Z; Line.Path [3; 4]%Z] !! r' = None)).
Proof.
  exact (clean_geometry_artifacts_returns_argument_iff
           (Line.world [Line.Path [1; 5; 2; 2; 3]%Z; Line.Path [3; 4]%Z]) 0
           (Line.Path [1; 5; 2; 2; 3]%Z) eq_refl).
Defined.

(** ** One function after the other *)

(** X6.  The passthrough of [clean_overlap] is an alias: when the arguments
    do not intersect and the subject is not empty, cleaning the result of
    [clean_overlap] with [clean_geometry_artifacts] deduplicates the
    caller's subject object in place. *)
Theorem cleaning_passed_through_subject_changes_it {G : Type} {E : Engine G}
    (w : World G) (a b : ref) (ga gb : G) :
  heap w !! a = Some ga -> heap w !! b = Some gb ->
  eng_intersects ga gb = false -> eng_isEmpty ga = false ->
  returns (bind (clean_overlap a b) clean_geometry_artifacts) w
    (fun _ w' => heap w' !! a = Some (eng_removeDuplicateNodes ga)).
Proof.
  intros Ha Hb Hi He. unfold returns.
  assert (Hlt : a < length (heap w)) by (eapply lookup_lt_Some; eassumption).
  rewrite (bind_run _ _ _ _ _ (clean_overlap_apart _ _ _ _ _ Ha Hb Hi)).
  erewrite clean_geometry_artifacts_nonempty
    by (cbn [heap]; eassumption).
  cbn [heap calls].
  destruct (eng_isGeosValid (eng_removeDuplicateNodes ga));
    eexists; eexists; (split; [reflexivity|]); cbn [heap].
  - now apply list_lookup_insert_eq.
  - apply lookup_old_object. now apply list_lookup_insert_eq.
Qed.

Lemma cleaning_passed_through_subject_changes_it_witness :
  returns (bind (clean_overlap 0 1) clean_geometry_artifacts)
    (Line.world [Line.Path [1; 2; 2; 3]%Z; Line.Path [5; 4]%Z])
    (fun _ w' => heap w' !! 0 = Some (Line.Path [1; 2; 3]%Z)).
Proof.
  exact (cleaning_passed_through_subject_changes_it
           (Line.world [Line.Path [1; 2; 2; 3]%Z; Line.Path [5; 4]%Z]) 0 1
           (Line.Path [1; 2; 2; 3]%Z) (Line.Path [5; 4]%Z)
           eq_refl eq_refl eq_refl eq_refl).
Defined.

(** X7.  When the arguments intersect, the result of [clean_overlap] is a
    new object, so cleaning it with [clean_geometry_artifacts] changes
    neither the subject nor the clipper nor any other object that existed
    before the two calls. *)
Theorem cleaning_new_result_keeps_arguments {G : Type} {E : Engine G}
    (w : World G) (a b : ref) (ga gb : G) :
  heap w !! a = Some ga -> heap w !! b = Some gb ->
  eng_intersects ga gb = true ->
  returns (bind (clean_overlap a b) clean_geometry_artifacts) w
    (fun _ w' => forall x v, heap w !! x = Some v -> heap w' !! x = Some v).
Proof.
  intros Ha Hb Hi.
  destruct (clean_overlap_total _ _ _ _ _ Ha Hb) as (r & w1 & Hrun).
  destruct (clean_overlap_result_holds _ _ _ _ _ _ _ Ha Hb Hrun)
    as (Hval & Hnew & extra & Hh).
  specialize (Hnew Hi).
  destruct (clean_geometry_artifacts_total _ _ _ Hval) as (r' & w' & Hrun').
  exists r', w'. split.
  - rewrite (bind_run _ _ _ _ _ Hrun). exact Hrun'.
  - intros x v Hx.
    assert (Hlt : x < length (heap w)) by (eapply lookup_lt_Some; eassumption).
    apply (clean_geometry_artifacts_frame _ _ _ _ _ Hval Hrun'); [lia|].
    rewrite Hh. now apply lookup_old_object.
Qed.

Lemma cleaning_new_result_keeps_arguments_witness :
  returns (bind (clean_overlap 0 1) clean_geometry_artifacts)
    (Line.world [Line.Path [5; 1; 2; 2; 3]%Z; Line.Path [3; 4]%Z])
    (fun _ w' =>
       forall x v,
         [Line.Path [5; 1; 2; 2; 3]%Z; Line.Path [3; 4]%Z] !! x = Some v ->
         heap w' !! x = Some v).
Proof.
  exact (cleaning_new_result_keeps_arguments
           (Line.world [Line.Path [5; 1; 2; 2; 3]%Z; Line.Path [3; 4]%Z]) 0 1
           (Line.Path [5; 1; 2; 2; 3]%Z) (Line.Path [3; 4]%Z)
           eq_refl eq_refl eq_refl).
Defined.

(** ** Calling a function again *)

(** X8.  Reading the area of a feature disturbs nothing it reads: the
    store is as it was after two calls of [get_feature_area] in a row, and
    the second call returns the value the first one returned. *)
Theorem get_feature_area_repeatable {G : Type} {E : Engine G}
    (w : World G) (f : QgsFeature) :
  (forall r, feature_geometry f = Some r -> exists g, heap w !! r = Some g) ->
  returns (bind (get_feature_area f)
             (fun x => bind (get_feature_area f) (fun y => ret (x, y)))) w
    (fun p w' => fst p = snd p /\ heap w' = heap w).
Proof.
  intros Hobj.
  destruct (get_feature_area_reads_store w w f eq_refl Hobj)
    as (x & w1 & _ & Hrun1 & _ & Hh1 & _).
  destruct (get_feature_area_reads_store w w1 f (eq_sym Hh1) Hobj)
    as (x' & w0 & w2 & Hrun0 & Hrun2 & _ & Hh2).
  assert (x' = x) by congruence. subst x'.
  exists (x, x), w2. split.
  - rewrite (bind_run _ _ _ _ _ Hrun1), (bind_run _ _ _ _ _ Hrun2).
    reflexivity.
  - split; [reflexivity|congruence].
Qed.

Lemma get_feature_area_repeatable_witness :
  returns (bind (get_feature_area {| feature_geometry := Some 0 |})
             (fun x => bind (get_feature_area {| feature_geometry := Some 0 |})
                         (fun y => ret (x, y))))
    (Line.world [Line.Path [1; 2; 2; 5]%Z])
    (fun p w' => fst p = snd p /\ heap w' = [Line.Path [1; 2; 2; 5]%Z]).
Proof.
  apply (get_feature_area_repeatable
           (Line.world [Line.Path [1; 2; 2; 5]%Z])
           {| feature_geometry := Some 0 |}).
  intros r Hr. inversion Hr; subst. now exists (Line.Path [1; 2; 2; 5]%Z).
Defined.

(** X9.  [clean_overlap] keeps no state and changes nothing it reads:
    called twice in a row on the same subject and clipper, it returns two
    geometries with one and the same value (two objects when the arguments
    intersect, the subject itself twice when they do not). *)
Theorem clean_overlap_repeatable {G : Type} {E : Engine G}
    (w : World G) (a b : ref) (ga gb : G) :
  heap w !! a = Some ga -> heap w !! b = Some gb ->
  returns (bind (clean_overlap a b)
             (fun r1 => bind (clean_overlap a b) (fun r2 => ret (r1, r2)))) w
    (fun p w' =>
       exists v, heap w' !! fst p = Some v /\ heap w' !! snd p = Some v).
Proof.
  intros Ha Hb.
  destruct (clean_overlap_total _ _ _ _ _ Ha Hb) as (r1 & w1 & Hrun1).
  destruct (clean_overlap_result_holds _ _ _ _ _ _ _ Ha Hb Hrun1)
    as (Hval1 & _ & extra1 & Hh1).
  assert (Ha1 : heap w1 !! a = Some ga)
    by (rewrite Hh1; now apply lookup_old_object).
  assert (Hb1 : heap w1 !! b = Some gb)
    by (rewrite Hh1; now apply lookup_old_object).
  destruct (clean_overlap_total _ _ _ _ _ Ha1 Hb1) as (r2 & w2 & Hrun2).
  destruct (clean_overlap_result_holds _ _ _ _ _ _ _ Ha1 Hb1 Hrun2)
    as (Hval2 & _ & extra2 & Hh2).
  exists (r1, r2), w2. split.
  - rewrite (bind_run _ _ _ _ _ Hrun1), (bind_run _ _ _ _ _ Hrun2).
    reflexivity.
  - eexists. split; [|exact Hval2].
    cbn [fst]. rewrite Hh2. now apply lookup_old_object.
Qed.

Lemma clean_overlap_repeatable_witness :
  returns (bind (clean_overlap 0 1)
             (fun r1 => bind (clean_overlap 0 1) (fun r2 => ret (r1, r2))))
    (Line.world [Line.Path [5; 1; 2; 2; 3]%Z; Line.Path [3; 4]%Z])
    (fun p w' =>
       exists v, heap w' !! fst p = Some v /\ heap w' !! snd p = Some v).
Proof.
  exact (clean_overlap_repeatable
           (Line.world [Line.Path [5; 1; 2; 2; 3]%Z; Line.Path [3; 4]%Z]) 0 1
           (Line.Path [5; 1; 2; 2; 3]%Z) (Line.Path [3; 4]%Z)
           eq_refl eq_refl).
Defined.
